(** * SizeSpectrum: granulometric size spectrum by area opening

    A shallow embedding of [SizeSpectrum.py] ([remove_background] and
    [calc_size_spectrum]) and the properties of it that the design
    document states.

    The program is numpy code over [float64] arrays.  The embedding is
    written once over an interface [Numeric] of the array element type and
    its arithmetic, and read at two instances:

    - [binary64]: IEEE 754 double precision (the Standard Library's
      [SpecFloat] with [prec = 53], [emax = 1024]), which is what the
      program runs on: NaN, infinities, signed zeros and rounding to
      nearest-even are all there and every definition evaluates;
    - [exact]: the real numbers, the idealisation in which the algebraic
      statements of the design document (telescoping, unit area) are
      meant.

    The image-processing primitives of scikit-image ([rescale],
    [rolling_ball], [area_opening]) are not part of the program; they are
    the fields of a record [Library] the pipeline is parameterised by. *)

From Stdlib Require Import ZArith List Bool Lia Sorted.
From Stdlib Require Import Floats.SpecFloat.
From Stdlib Require Import Reals Lra.
Import ListNotations.

Local Open Scope Z_scope.

(** ** Python results *)

(** The only exception the program itself can meet is the [ValueError]
    of [range] called with a zero step. *)
Inductive exn : Type :=
| ValueError.

Inductive result (A : Type) : Type :=
| Ok (a : A)
| Raise (e : exn).

Arguments Ok {A} a.
Arguments Raise {A} e.

(** ** [range(start, stop, step)]

    CPython computes the length of a range as
    [(hi - lo - 1) // step + 1] when [lo < hi] and [0] otherwise, with
    [(lo, hi) = (start, stop)] for a positive step and
    [(stop, start)] with the step negated for a negative one; a zero
    step raises [ValueError]. *)
Definition range_length (lo hi step : Z) : Z :=
  if lo <? hi then (hi - lo - 1) / step + 1 else 0.

Definition py_range (start stop step : Z) : result (list Z) :=
  if step =? 0 then Raise ValueError
  else
    let n := if 0 <? step then range_length start stop step
             else range_length stop start (- step) in
    Ok (map (fun i => start + Z.of_nat i * step) (seq 0 (Z.to_nat n))).

(** ** Lists as 1-D arrays *)

Section Arrays.
Context {A B C : Type}.

(** Elementwise binary operation on two arrays (on the common prefix;
    the program only combines arrays of equal length). *)
Fixpoint zip_with (f : A -> B -> C) (xs : list A) (ys : list B) : list C :=
  match xs, ys with
  | x :: xs', y :: ys' => f x y :: zip_with f xs' ys'
  | _, _ => []
  end.

(** [a[i] = v] for [i] in range; the program never stores out of range
    (numpy would raise [IndexError]), the model leaves the array
    unchanged there. *)
Fixpoint store (i : nat) (v : A) (a : list A) : list A :=
  match a, i with
  | [], _ => []
  | _ :: a', O => v :: a'
  | x :: a', S i' => x :: store i' v a'
  end.

(** [enumerate(a)] from a starting index. *)
Fixpoint enumerate_from (k : nat) (a : list A) : list (nat * A) :=
  match a with
  | [] => []
  | x :: a' => (k, x) :: enumerate_from (S k) a'
  end.

Definition enumerate (a : list A) : list (nat * A) := enumerate_from 0 a.
End Arrays.

(** ** The element type of the arrays *)

(** [sum] is numpy's [add.reduce] of a 1-D array (of the flattened
    array when every axis is reduced). *)
Record Numeric : Type := {
  num : Type;
  add : num -> num -> num;
  sub : num -> num -> num;
  mul : num -> num -> num;
  div : num -> num -> num;
  of_int : Z -> num;            (* conversion of a Python int *)
  pi : num;                     (* np.pi *)
  neqb : num -> num -> bool;    (* x != y *)
  gtb : num -> num -> bool;     (* x > y *)
  sum : list num -> num
}.

Definition image (N : Numeric) : Type := list (list (num N)).

(** The scikit-image primitives the program imports. *)
Record Library (N : Numeric) : Type := {
  rescale : image N -> num N -> image N;
  rolling_ball : image N -> num N -> image N;   (* rolling_ball(img, radius=r) *)
  area_opening : image N -> num N -> image N    (* area_opening(img, area) *)
}.

Arguments rescale {N} _ _ _.
Arguments rolling_ball {N} _ _ _.
Arguments area_opening {N} _ _ _.

(** ** The program *)

Section Program.
Variable N : Numeric.
Variable L : Library N.

Let num : Type := num N.
Let image : Type := image N.

Definition zero : num := of_int N 0.
Definition one : num := of_int N 1.
Definition two : num := of_int N 2.
Definition hundred : num := of_int N 100.

(** [x ** 2] *)
Definition square (x : num) : num := mul N x x.

(** [ndarray.sum()] and [ndarray.mean()] of a 2-D array: the reduction
    of all elements, and that sum divided by the element count. *)
Definition img_sum (im : image) : num := sum N (concat im).

Definition img_mean (im : image) : num :=
  div N (sum N (concat im)) (of_int N (Z.of_nat (length (concat im)))).

(** [a - b] on 2-D arrays of one shape. *)
Definition img_sub (a b : image) : image :=
  zip_with (zip_with (sub N)) a b.

(** [np.zeros(n)] *)
Definition zeros (n : nat) : list num := repeat zero n.

Section Background.
(** The dtype of the caller's image and its conversion to float. *)
Context {pixel : Type}.
Variable to_float : pixel -> num.

(** [img.astype(float)] *)
Definition astype_float (img : list (list pixel)) : image :=
  map (map to_float) img.

(** [remove_background(img, d)]:
<<
r = d / 2.0
bgimg = rolling_ball(img.astype(float), radius=r)
return img - bgimg
>>
    The subtraction of a float array from [img] converts [img] as
    [astype] does. *)
Definition remove_background (img : list (list pixel)) (d : num) : image :=
  let r := div N d two in
  let bgimg := rolling_ball L (astype_float img) r in
  img_sub (astype_float img) bgimg.
End Background.

(** [diams = [1] + list(range(step, end, step))], as floats, times
    [scale] (lines 66 to 72). *)
Definition diameters (scale : num) (step end_ : Z) : result (list num) :=
  match py_range step end_ step with
  | Raise e => Raise e
  | Ok r => Ok (map (fun d => mul N (of_int N d) scale) (1 :: r))
  end.

(** Lines 75 to 82: the mean of the image as given, then the optional
    rescaling and the optional background removal.  Returns
    [(origmean, img)]. *)
Definition prepare {pixel : Type} (to_float : pixel -> num)
    (img : list (list pixel)) (scale bg_diam : num) : num * image :=
  let img := astype_float to_float img in
  let origmean := img_mean img in
  let img := if neqb N scale one then rescale L img scale else img in
  let img := if gtb N bg_diam zero
             then remove_background (fun x => x) img (mul N bg_diam scale)
             else img in
  (origmean, img).

(** [area = np.pi * (d / 2) ** 2] *)
Definition area_of (d : num) : num := mul N (pi N) (square (div N d two)).

(** One turn of the loop of lines 93 to 98 on the state [(curint, gs)]:
<<
  prevint = curint
  area = np.pi * (d / 2) ** 2
  wrk = area_opening(img, area)
  curint = wrk.sum()
  gs[i] = prevint - curint
>> *)
Definition sweep_step (img : image) (st : num * list num) (id : nat * num)
    : num * list num :=
  let '(curint, gs) := st in
  let '(i, d) := id in
  let prevint := curint in
  let area := area_of d in
  let wrk := area_opening L img area in
  let curint := img_sum wrk in
  (curint, store i (sub N prevint curint) gs).

(** Lines 85 to 98: the loop from [curint = sum0], [gs = zeros]. *)
Definition sweep (img : image) (diams : list num) : num * list num :=
  let Nsteps := length diams in
  let gs := zeros Nsteps in
  let sum0 := img_sum img in
  let curint := sum0 in
  fold_left (sweep_step img) (enumerate diams) (curint, gs).

(** For the statements about the sweep: the total intensity of the image
    opened at the area of diameter [d], and the differences
    [prevint - curint] along a list of diameters from a given first
    [prevint]. *)
Definition opened_sum (img : image) (d : num) : num :=
  img_sum (area_opening L img (mul N (pi N) (square (div N d two)))).

Definition differences (img : image) (prevint : num) (diams : list num)
    : list num :=
  zip_with (sub N) (prevint :: map (opened_sum img) diams)
           (map (opened_sum img) diams).

(** [np.trapz(y, x=x)]: [(d * (y[1:] + y[:-1]) / 2.0).sum()] with
    [d = diff(x)]. *)
Definition np_diff (x : list num) : list num :=
  zip_with (sub N) (tl x) (removelast x).

Definition np_trapz (y x : list num) : num :=
  let d := np_diff x in
  sum N (zip_with (fun di s => div N (mul N di s) two)
                  d (zip_with (add N) (tl y) (removelast y))).

(** [calc_size_spectrum(img, scale, step, end, bg_diam)] *)
Definition calc_size_spectrum {pixel : Type} (to_float : pixel -> num)
    (img : list (list pixel)) (scale : num) (step end_ : Z) (bg_diam : num)
    : result (list num * list num) :=
  match diameters scale step end_ with
  | Raise e => Raise e
  | Ok diams =>
      let '(origmean, img) := prepare to_float img scale bg_diam in
      let sum0 := img_sum img in
      let '(_, gs) := sweep img diams in
      let gs := map (fun g => mul N (div N g sum0) hundred) gs in
      let diams := map (fun d => div N d scale) diams in
      let z := np_trapz gs diams in
      let norm_gs := map (fun g => mul N origmean (div N g z)) gs in
      Ok (diams, norm_gs)
  end.
End Program.

Arguments remove_background {N} L {pixel} to_float img d.
Arguments prepare {N} L {pixel} to_float img scale bg_diam.
Arguments sweep {N} L img diams.
Arguments sweep_step {N} L img st id.
Arguments calc_size_spectrum {N} L {pixel} to_float img scale step end_ bg_diam.
Arguments astype_float N {pixel} to_float img.
Arguments opened_sum {N} L img d.
Arguments differences {N} L img prevint diams.

(** ** The two arithmetics *)

(** *** IEEE 754 binary64 *)

Module B64.
Definition prec : Z := 53.
Definition emax : Z := 1024.

Definition float : Type := spec_float.

Definition add : float -> float -> float := SFadd prec emax.
Definition sub : float -> float -> float := SFsub prec emax.
Definition mul : float -> float -> float := SFmul prec emax.
Definition div : float -> float -> float := SFdiv prec emax.

(** [x != y] and [x > y]: both comparisons with a NaN are unordered,
    so [!=] is true and [>] false there. *)
Definition neqb (x y : float) : bool := negb (SFeqb x y).
Definition gtb (x y : float) : bool := SFltb y x.

(** Conversion of a Python int, rounded to nearest-even. *)
Definition of_int (z : Z) : float := binary_normalize prec emax z 0 false.

(** [np.pi = 0x1.921fb54442d18p+1] *)
Definition pi : float := S754_finite false 7074237752028440 (-51).

Definition nan : float := S754_nan.

(** numpy reduces fewer than eight elements from left to right
    starting at zero; longer arrays are summed in blocks, which may
    round differently.  The statements below that evaluate [sum] use
    short arrays or arrays of zeros, where the order is immaterial. *)
Definition sum (a : list float) : float :=
  fold_left add a (S754_zero false).


Definition is_nan (x : float) : bool :=
  match x with
  | S754_nan => true
  | _ => false
  end.


Definition is_zero_or_nan (x : float) : bool :=
  match x with
  | S754_zero _ | S754_nan => true
  | _ => false
  end.
End B64.

Definition binary64 : Numeric := {|
  num := B64.float;
  add := B64.add;
  sub := B64.sub;
  mul := B64.mul;
  div := B64.div;
  of_int := B64.of_int;
  pi := B64.pi;
  neqb := B64.neqb;
  gtb := B64.gtb;
  sum := B64.sum
|}.

(** *** Exact real arithmetic *)

Definition exact : Numeric := {|
  num := R;
  add := Rplus;
  sub := Rminus;
  mul := Rmult;
  div := Rdiv;
  of_int := IZR;
  pi := PI;
  neqb := fun x y => if Req_dec_T x y then false else true;
  gtb := fun x y => if Rlt_dec y x then true else false;
  sum := fun a => fold_right Rplus 0%R a
|}.

(** ** Instances of the primitives used to evaluate the program *)

Module Samples.
(** Float literals. *)
Definition f0 : B64.float := B64.of_int 0.
Definition f1 : B64.float := B64.of_int 1.
Definition f5 : B64.float := B64.of_int 5.
Definition nine_tenths : B64.float := S754_finite false 8106479329266893 (-53).
Definition three_tenths : B64.float := S754_finite false 5404319552844595 (-54).

(** The primitives at the points where they change nothing:
    [area_opening] leaves an image as it is when the threshold is at
    most one pixel or the image is flat with at least as many pixels as
    the threshold, and leaves an image of zeros as it is for every
    threshold; [rolling_ball] with radius [0] has a one-pixel kernel
    of height [0], so the background it returns is the image itself;
    [rescale] of a one-pixel image is a one-pixel image of the same
    value, and it is not called when [scale] is [1.0]. *)
Definition identity_library : Library binary64 := {|
  rescale := fun img _ => img;
  rolling_ball := fun img _ => img;
  area_opening := fun img _ => img
|}.

(** An opening that returns a one-pixel image of intensity [0.9] below
    a threshold of one pixel and of intensity [0.3] from there on. *)
Definition lossy_library : Library binary64 := {|
  rescale := fun img _ => img;
  rolling_ball := fun img _ => img;
  area_opening := fun (_ : image binary64) (a : B64.float) =>
    if B64.gtb f1 a then [[nine_tenths]] else [[three_tenths]]
|}.

(** The same shape over the reals: every opening returns a one-pixel
    image of intensity [1]. *)
Definition unit_library : Library exact := {|
  rescale := fun img _ => img;
  rolling_ball := fun img _ => img;
  area_opening := fun (_ : image exact) (_ : R) => [[1%R]]
|}.


(** A flat image of 100 by 100 pixels of value [10]: it has more
    pixels than any threshold of the sweeps below, so [area_opening]
    leaves it as it is. *)
Definition flat_100x100 : image binary64 := repeat (repeat (B64.of_int 10) 100) 100.
End Samples.

(** * Properties *)

(** ** Arrays *)

Section ArrayFacts.
Context {A B C : Type}.

Lemma zip_with_length (f : A -> B -> C) (xs : list A) (ys : list B) :
  length (zip_with f xs ys) = Nat.min (length xs) (length ys).
Proof.
  revert ys; induction xs as [|x xs IH]; intros [|y ys]; simpl; auto.
Qed.

Lemma store_length (i : nat) (v : A) (a : list A) :
  length (store i v a) = length a.
Proof.
  revert i; induction a as [|x a IH]; intros [|i]; simpl; auto.
Qed.

Lemma store_app (pre : list A) (v x : A) (post : list A) :
  store (length pre) v (pre ++ x :: post) = pre ++ v :: post.
Proof.
  induction pre as [|p pre IH]; simpl; [reflexivity | now rewrite IH].
Qed.

Lemma last_cons (x d : A) (l : list A) : last (x :: l) d = last l x.
Proof.
  revert x d; induction l as [|y l IH]; intros x d; [reflexivity|].
  change (last (x :: y :: l) d) with (last (y :: l) d).
  rewrite (IH y d), (IH y x). reflexivity.
Qed.
End ArrayFacts.

(** ** [range] *)

Lemma py_range_zero_step (start stop : Z) :
  py_range start stop 0 = Raise ValueError.
Proof. reflexivity. Qed.




(** ** The opening sweep *)

Section Sweep.
Variable N : Numeric.
Variable L : Library N.
Variable img : image N.

Lemma differences_cons (prevint d : num N) (diams : list (num N)) :
  differences L img prevint (d :: diams)
  = sub N prevint (opened_sum L img d) :: differences L img (opened_sum L img d) diams.
Proof. reflexivity. Qed.

Lemma differences_length (prevint : num N) (diams : list (num N)) :
  length (differences L img prevint diams) = length diams.
Proof.
  unfold differences. rewrite zip_with_length.
  cbn [length]. rewrite length_map. lia.
Qed.

(** Invariant of the loop: with [k] slots filled and [curint] the
    running sum, the remaining turns fill the remaining slots with the
    remaining differences and leave the filled ones alone. *)
Lemma sweep_loop (rest : list (num N)) :
  forall (filled : list (num N)) (curint : num N),
    fold_left (sweep_step L img) (enumerate_from (length filled) rest)
              (curint, filled ++ zeros N (length rest))
    = (last (map (opened_sum L img) rest) curint, filled ++ differences L img curint rest).
Proof.
  induction rest as [|d rest IH]; intros filled curint.
  - reflexivity.
  - cbn [enumerate_from fold_left length zeros repeat].
    unfold sweep_step at 2. fold (zeros N (length rest)).
    rewrite store_app.
    change (area_of N d) with (mul N (pi N) (square N (div N d (two N)))).
    fold (opened_sum L img d).
    replace (filled ++ sub N curint (opened_sum L img d) :: zeros N (length rest))
      with ((filled ++ [sub N curint (opened_sum L img d)]) ++ zeros N (length rest))
      by (rewrite <- app_assoc; reflexivity).
    replace (S (length filled))
      with (length (filled ++ [sub N curint (opened_sum L img d)]))
      by (rewrite length_app; simpl; lia).
    rewrite IH, differences_cons, <- app_assoc.
    cbn [map]. rewrite last_cons. reflexivity.
Qed.

Lemma sweep_closed_form (diams : list (num N)) :
  sweep L img diams
  = (last (map (opened_sum L img) diams) (img_sum N img),
     differences L img (img_sum N img) diams).
Proof.
  unfold sweep, enumerate.
  exact (sweep_loop diams [] (img_sum N img)).
Qed.
End Sweep.


(** ** The pipeline *)

Section Pipeline.
Variable N : Numeric.
Variable L : Library N.
Context {pixel : Type}.
Variable to_float : pixel -> num N.

(** The diameters of the sweep: [d * scale] for [d] in
    [[1] + list(range(step, end, step))]. *)
Lemma diameters_ok (scale : num N) (step end_ : Z) (r : list Z) :
  py_range step end_ step = Ok r ->
  diameters N scale step end_
  = Ok (map (fun d => mul N (of_int N d) scale) (1 :: r)).
Proof. intros H. unfold diameters. now rewrite H. Qed.

Lemma diameters_zero_step (scale : num N) (end_ : Z) :
  diameters N scale 0 end_ = Raise ValueError.
Proof. reflexivity. Qed.

(** [calc_size_spectrum] by stages: the diameters, the prepared image
    and mean, the raw differences of the sweep, the percentages, the
    diameters scaled back, the integral and the final curve. *)
Lemma calc_size_spectrum_stages
    (img : list (list pixel)) (scale : num N) (step end_ : Z) (bg_diam : num N) :
  calc_size_spectrum L to_float img scale step end_ bg_diam
  = match diameters N scale step end_ with
    | Raise e => Raise e
    | Ok diams =>
        let origmean := fst (prepare L to_float img scale bg_diam) in
        let im := snd (prepare L to_float img scale bg_diam) in
        let sum0 := img_sum N im in
        let gs := map (fun g => mul N (div N g sum0) (hundred N))
                      (differences L im sum0 diams) in
        let xs := map (fun d => div N d scale) diams in
        let z := np_trapz N gs xs in
        Ok (xs, map (fun g => mul N origmean (div N g z)) gs)
    end.
Proof.
  unfold calc_size_spectrum.
  destruct (diameters N scale step end_) as [diams|e]; [|reflexivity].
  destruct (prepare L to_float img scale bg_diam) as [origmean im].
  rewrite sweep_closed_form. reflexivity.
Qed.


(** The two returned arrays have the length of the diameter list. *)
Lemma calc_size_spectrum_lengths
    (img : list (list pixel)) (scale : num N) (step end_ : Z) (bg_diam : num N)
    (r : list Z) (xs ys : list (num N)) :
  py_range step end_ step = Ok r ->
  calc_size_spectrum L to_float img scale step end_ bg_diam = Ok (xs, ys) ->
  length xs = S (length r) /\ length ys = S (length r).
Proof.
  intros Hr. rewrite calc_size_spectrum_stages, (diameters_ok scale step end_ r Hr).
  remember (map (fun d => mul N (of_int N d) scale) (1 :: r)) as ds eqn:Eds.
  assert (Hlen : length ds = S (length r))
    by (subst ds; rewrite length_map; reflexivity).
  clear Eds. cbv zeta. intros [= <- <-].
  rewrite !length_map, differences_length. auto.
Qed.
End Pipeline.

(** ** What the design document says of the pipeline *)

Section Contract.
Variable N : Numeric.
Variable L : Library N.
Context {pixel : Type}.
Variable to_float : pixel -> num N.

(** C1: in [calc_size_spectrum] the i-th raw spectrum value is
    [prevint - curint], where [curint] is the total intensity of
    [area_opening] applied at area [pi * (d / 2) ** 2] to the one
    background-corrected image (every turn opens that same image, never
    the result of the turn before), and [prevint] is the [curint] of the
    turn before, [sum0] in the first turn.  It holds for every list of
    diameters, ascending or not; the second part is the place of the
    sweep in [calc_size_spectrum]. *)
Theorem raw_spectrum_is_prevint_minus_curint
    (img : list (list pixel)) (scale : num N) (step end_ : Z) (bg_diam : num N) :
  let origmean := fst (prepare L to_float img scale bg_diam) in
  let im := snd (prepare L to_float img scale bg_diam) in
  let sum0 := img_sum N im in
  let curints (diams : list (num N)) :=
    map (fun d =>
           img_sum N (area_opening L im
                        (mul N (pi N) (square N (div N d (two N))))))
        diams in
  (forall diams : list (num N),
      snd (sweep L im diams)
      = zip_with (sub N) (sum0 :: curints diams) (curints diams))
  /\ calc_size_spectrum L to_float img scale step end_ bg_diam
     = match diameters N scale step end_ with
       | Raise e => Raise e
       | Ok diams =>
           let gs := map (fun g => mul N (div N g sum0) (hundred N))
                         (snd (sweep L im diams)) in
           let xs := map (fun d => div N d scale) diams in
           Ok (xs, map (fun g => mul N origmean (div N g (np_trapz N gs xs))) gs)
       end.
Proof.
  cbv zeta. split.
  - intros diams. rewrite sweep_closed_form. reflexivity.
  - rewrite calc_size_spectrum_stages.
    destruct (diameters N scale step end_) as [diams|e]; [|reflexivity].
    cbv zeta. rewrite sweep_closed_form. reflexivity.
Qed.



(** C6, as the program has it: [remove_background] has no bypass, for
    every [d] it returns the image minus [rolling_ball] of it at radius
    [d / 2]; the bypass is the caller's: when [bg_diam > 0] is false,
    [calc_size_spectrum] hands the (possibly rescaled) image to the sweep
    as it is. *)
Theorem background_bypass_is_the_callers
    (img : list (list pixel)) (scale bg_diam d : num N) :
  gtb N bg_diam (zero N) = false ->
  remove_background L to_float img d
  = img_sub N (astype_float N to_float img)
            (rolling_ball L (astype_float N to_float img) (div N d (two N)))
  /\ snd (prepare L to_float img scale bg_diam)
     = (if neqb N scale (one N)
        then rescale L (astype_float N to_float img) scale
        else astype_float N to_float img).
Proof.
  intros Hbg. split; [reflexivity|].
  unfold prepare. cbn [snd]. rewrite Hbg. reflexivity.
Qed.

(** C7: [origmean], the factor of the returned curve, is the mean of the
    image as given (converted to float and nothing else): neither
    [scale] nor [bg_diam] nor any primitive enters it. *)
Theorem origmean_is_mean_of_the_input
    (img : list (list pixel)) (scale : num N) (step end_ : Z) (bg_diam : num N) :
  let origmean := img_mean N (astype_float N to_float img) in
  fst (prepare L to_float img scale bg_diam) = origmean
  /\ calc_size_spectrum L to_float img scale step end_ bg_diam
     = match diameters N scale step end_ with
       | Raise e => Raise e
       | Ok diams =>
           let im := snd (prepare L to_float img scale bg_diam) in
           let gs := map (fun g => mul N (div N g (img_sum N im)) (hundred N))
                         (snd (sweep L im diams)) in
           let xs := map (fun d => div N d scale) diams in
           Ok (xs, map (fun g => mul N origmean (div N g (np_trapz N gs xs))) gs)
       end.
Proof.
  cbv zeta. split; [reflexivity|].
  rewrite calc_size_spectrum_stages.
  destruct (diameters N scale step end_) as [diams|e]; [|reflexivity].
  cbv zeta. rewrite sweep_closed_form. reflexivity.
Qed.

(** The returned diameters are [(d * scale) / scale] for [d] in
    [[1] + list(range(step, end, step))]. *)
Lemma returned_diameters
    (img : list (list pixel)) (scale : num N) (step end_ : Z) (bg_diam : num N)
    (r : list Z) :
  py_range step end_ step = Ok r ->
  exists ys,
    calc_size_spectrum L to_float img scale step end_ bg_diam
    = Ok (map (fun d => div N (mul N (of_int N d) scale) scale) (1 :: r), ys).
Proof.
  intros Hr. rewrite calc_size_spectrum_stages, (diameters_ok N scale step end_ r Hr).
  cbv zeta. rewrite map_map. eauto.
Qed.


(** C9: whenever [calc_size_spectrum] returns, the two returned arrays
    have the same length. *)
Theorem returned_lengths_agree
    (img : list (list pixel)) (scale : num N) (step end_ : Z) (bg_diam : num N)
    (xs ys : list (num N)) :
  calc_size_spectrum L to_float img scale step end_ bg_diam = Ok (xs, ys) ->
  length xs = length ys.
Proof.
  intros H.
  destruct (py_range step end_ step) as [r|e] eqn:Hr.
  - destruct (calc_size_spectrum_lengths N L to_float img scale step end_
                bg_diam r xs ys Hr H) as [Hx Hy].
    congruence.
  - rewrite calc_size_spectrum_stages in H. unfold diameters in H.
    rewrite Hr in H. discriminate.
Qed.
End Contract.

(** ** In binary64 *)

Section Binary64.





End Binary64.

(** ** In exact arithmetic *)

Section Exact.
Local Open Scope R_scope.

(** Reads the operations of [exact] as the operations of [R]. *)
Ltac reals :=
  change (num exact) with R in *;
  change (add exact) with Rplus in *;
  change (sub exact) with Rminus in *;
  change (mul exact) with Rmult in *;
  change (div exact) with Rdiv in *;
  change (hundred exact) with 100 in *;
  change (two exact) with 2 in *.

Lemma tl_map_comm {A B : Type} (f : A -> B) (l : list A) :
  tl (map f l) = map f (tl l).
Proof. destruct l; reflexivity. Qed.

Lemma removelast_map_comm {A B : Type} (f : A -> B) (l : list A) :
  removelast (map f l) = map f (removelast l).
Proof.
  induction l as [|x l IH]; [reflexivity|].
  destruct l as [|y l]; [reflexivity|].
  change (f x :: removelast (map f (y :: l)) = f x :: map f (removelast (y :: l))).
  now rewrite IH.
Qed.

Lemma last_map_comm {A B : Type} (f : A -> B) (l : list A) (d : A) :
  last (map f l) (f d) = f (last l d).
Proof.
  induction l as [|x l IH]; [reflexivity|].
  destruct l as [|y l]; [reflexivity|].
  change (last (map f (y :: l)) (f d) = f (last (y :: l) d)). exact IH.
Qed.

Lemma sum_scaled (k : R) (l : list R) :
  sum exact (map (Rmult k) l) = k * sum exact l.
Proof.
  induction l as [|x l IH]; cbn in *; [ring | rewrite IH; ring].
Qed.

Lemma zip_add_scaled (k : R) (a b : list R) :
  zip_with Rplus (map (Rmult k) a) (map (Rmult k) b)
  = map (Rmult k) (zip_with Rplus a b).
Proof.
  revert b; induction a as [|x a IH]; intros [|y b]; cbn; try reflexivity.
  rewrite IH. f_equal. ring.
Qed.

Lemma zip_trapezia_scaled (k : R) (d s : list R) :
  zip_with (fun di si => di * si / 2) d (map (Rmult k) s)
  = map (Rmult k) (zip_with (fun di si => di * si / 2) d s).
Proof.
  revert s; induction d as [|x d IH]; intros [|y s]; cbn; try reflexivity.
  rewrite IH. f_equal. field.
Qed.

(** The trapezoidal rule is linear in the ordinates. *)
Lemma np_trapz_scaled (k : R) (y x : list R) :
  np_trapz exact (map (Rmult k) y) x = k * np_trapz exact y x.
Proof.
  unfold np_trapz.
  change (add exact) with Rplus.
  change (fun di s : num exact => div exact (mul exact di s) (two exact))
    with (fun di si : R => di * si / 2).
  rewrite tl_map_comm, removelast_map_comm, zip_add_scaled,
    zip_trapezia_scaled.
  apply sum_scaled.
Qed.


(** A sum of successive differences telescopes. *)
Lemma differences_telescope (L : Library exact) (im : image exact)
    (diams : list R) (prevint : R) :
  sum exact (differences L im prevint diams)
  = prevint - last (map (opened_sum L im) diams) prevint.
Proof.
  revert prevint; induction diams as [|d diams IH]; intros prevint.
  - change (0 = prevint - prevint :> R). ring.
  - rewrite differences_cons. cbn [map]. rewrite last_cons.
    change (sum exact (?x :: ?l)) with (x + sum exact l).
    rewrite IH. reals. ring.
Qed.


(** C10, as it holds: in exact arithmetic the raw differences of a
    sweep telescope, their sum is [sum0] minus the total intensity of
    the image opened at the last diameter, whatever the opening
    returns in between. *)
Theorem raw_spectrum_telescopes
    (L : Library exact) (im : image exact) (d : R) (diams : list R) :
  sum exact (snd (sweep L im (d :: diams)))
  = img_sum exact im
    - img_sum exact
        (area_opening L im (PI * (last diams d / 2 * (last diams d / 2)))).
Proof.
  rewrite sweep_closed_form. cbn [snd].
  rewrite differences_telescope.
  change (last (map (opened_sum L im) (d :: diams)) (img_sum exact im))
    with (last (opened_sum L im d :: map (opened_sum L im) diams)
               (img_sum exact im)).
  rewrite last_cons, last_map_comm. reflexivity.
Qed.
End Exact.

(** ** The program on concrete inputs *)

Section Runs.
Import Samples.





(** C6 fails: [remove_background] with [d = 0] runs the rolling ball at
    radius [0] and subtracts its background, the image itself: a pixel
    of value [5] comes back as [0]. *)
Lemma remove_background_at_zero_diameter :
  remove_background identity_library (fun x => x) [[f5]] f0 = [[f0]]
  /\ SFeqb f0 f5 = false.
Proof. split; vm_compute; reflexivity. Qed.


(** C10 fails in binary64: with total intensities [1.0], [0.9] and
    [0.3] the raw differences are [0.09999999999999998] and
    [0.6000000000000001]; they add up to [0.7000000000000001], and
    [1.0 - 0.3] is [0.7]. *)
Lemma rounded_differences_do_not_telescope :
  snd (sweep lossy_library [[f1]] [f1; B64.of_int 2])
  = [S754_finite false 7205759403792792 (-56);
     S754_finite false 5404319552844596 (-53)]
  /\ sum binary64 (snd (sweep lossy_library [[f1]] [f1; B64.of_int 2]))
     = S754_finite false 6305039478318695 (-53)
  /\ sub binary64 (img_sum binary64 [[f1]])
         (img_sum binary64
            (area_opening lossy_library [[f1]]
               (area_of binary64 (B64.of_int 2))))
     = S754_finite false 6305039478318694 (-53)
  /\ SFeqb (S754_finite false 6305039478318695 (-53))
           (S754_finite false 6305039478318694 (-53)) = false.
Proof. repeat split; vm_compute; reflexivity. Qed.

(** The statements with a hypothesis, at inputs that meet it. *)



Lemma background_bypass_witness :
  remove_background identity_library (fun x => x) [[f5]] f0
  = img_sub binary64 (astype_float binary64 (fun x => x) [[f5]])
      (rolling_ball identity_library
         (astype_float binary64 (fun x => x) [[f5]])
         (div binary64 f0 (two binary64)))
  /\ snd (prepare identity_library (fun x => x) [[f5]] f1 f0)
     = (if neqb binary64 f1 (one binary64)
        then rescale identity_library
               (astype_float binary64 (fun x => x) [[f5]]) f1
        else astype_float binary64 (fun x => x) [[f5]]).
Proof.
  apply (background_bypass_is_the_callers binary64 identity_library
           (fun x => x) [[f5]] f1 f0 f0).
  reflexivity.
Defined.


Lemma returned_lengths_witness :
  length [f1; f5; B64.of_int 10; B64.of_int 15]
  = length [B64.nan; B64.nan; B64.nan; B64.nan].
Proof.
  apply (returned_lengths_agree binary64 identity_library (fun x => x)
           [[f0]] f1 5 20 f0).
  vm_compute. reflexivity.
Defined.
End Runs.

Section ExactRuns.
Import Samples.
Local Open Scope R_scope.

(** With [scale = 1] and [bg_diam = 0] the image goes to the sweep as it
    is. *)
Lemma prepare_unit :
  prepare unit_library (fun x : R => x) [[2]] 1 0 = (2 / 1, [[2]]).
Proof.
  unfold prepare. cbn.
  destruct (Req_dec_T 1 1) as [_|n]; [|contradiction n; reflexivity].
  destruct (Rlt_dec 0 0) as [l|_]; [exfalso; lra|].
  f_equal. lra.
Qed.

End ExactRuns.

(** * Further properties of the program *)

(** ** The probed diameters *)

Section ProbedDiameters.
Variables step end_ : Z.
Variable r : list Z.
Hypothesis step_pos : 0 < step.
Hypothesis range_is_r : py_range step end_ step = Ok r.

Lemma range_elements :
  r = map (fun i => step + Z.of_nat i * step)
          (seq 0 (Z.to_nat (range_length step end_ step))).
Proof.
  revert range_is_r. unfold py_range.
  destruct (Z.eqb_spec step 0); [lia|].
  destruct (Z.ltb_spec 0 step); [|lia].
  now intros [= <-].
Qed.

Lemma range_length_bound (i : nat) :
  (i < Z.to_nat (range_length step end_ step))%nat
  <-> step + Z.of_nat i * step < end_.
Proof.
  unfold range_length. destruct (Z.ltb_spec step end_) as [Hlt|Hge].
  - assert (Hq : 0 <= (end_ - step - 1) / step)
      by (apply Z.div_pos; lia).
    split; intros H.
    + assert (Z.of_nat i <= (end_ - step - 1) / step) by lia.
      assert (step * ((end_ - step - 1) / step) <= end_ - step - 1)
        by (apply Z.mul_div_le; lia).
      nia.
    + assert (Z.of_nat i <= (end_ - step - 1) / step)
        by (apply Z.div_le_lower_bound; nia).
      lia.
  - simpl. split; [lia|]. intros H. nia.
Qed.

Lemma multiples_sorted (a n : nat) :
  StronglySorted Z.lt
    (map (fun i => step + Z.of_nat i * step) (seq a n)).
Proof.
  revert a; induction n as [|n IH]; intros a; cbn [seq map].
  - constructor.
  - constructor; [apply IH|].
    apply Forall_forall. intros x Hx. apply in_map_iff in Hx.
    destruct Hx as (i & <- & Hi). apply in_seq in Hi. nia.
Qed.

End ProbedDiameters.

(** The diameters the program probes, before scaling, are [1] and the
    positive multiples of [step] below [end]: every such multiple is
    probed and nothing else is. *)
Theorem probed_diameters (step end_ : Z) (r : list Z) (d : Z) :
  0 < step -> py_range step end_ step = Ok r ->
  In d (1 :: r) <-> d = 1 \/ exists k, 1 <= k /\ d = k * step /\ d < end_.
Proof.
  intros Hs Hr.
  rewrite (range_elements step end_ r Hs Hr). cbn [In]. rewrite in_map_iff.
  split; intros [H|H]; try (left; lia).
  - right. destruct H as (i & <- & Hi). apply in_seq in Hi.
    exists (Z.of_nat i + 1). split; [lia|]. split; [lia|].
    apply (range_length_bound step end_ Hs). lia.
  - right. destruct H as (k & Hk & -> & Hlt).
    exists (Z.to_nat (k - 1)). split; [rewrite Z2Nat.id by lia; lia|].
    apply in_seq. split; [lia|]. cbn [Nat.add].
    apply (range_length_bound step end_ Hs). rewrite Z2Nat.id by lia. lia.
Qed.

(** The probed diameters are strictly increasing exactly when [step] is
    at least [2] or the range is empty; with [step = 1] and [end > 1]
    the diameter [1] is probed twice. *)
Theorem probed_diameters_increasing (step end_ : Z) (r : list Z) :
  0 < step -> py_range step end_ step = Ok r ->
  StronglySorted Z.lt (1 :: r) <-> 2 <= step \/ end_ <= step.
Proof.
  intros Hpos Hr. split.
  - intros Hs. destruct (Z_lt_le_dec step end_) as [Hlt|Hge]; [|now right].
    left. apply StronglySorted_inv in Hs. destruct Hs as [_ Hall].
    assert (Hin : In step r).
    { rewrite (range_elements step end_ r Hpos Hr).
      apply in_map_iff. exists 0%nat.
      split; [simpl; lia|]. apply in_seq. split; [lia|]. cbn [Nat.add].
      apply (range_length_bound step end_ Hpos). simpl. lia. }
    pose proof (proj1 (Forall_forall _ _) Hall step Hin). lia.
  - intros H. constructor.
    + rewrite (range_elements step end_ r Hpos Hr).
      apply multiples_sorted, Hpos.
    + apply Forall_forall. intros x Hx.
      rewrite (range_elements step end_ r Hpos Hr) in Hx.
      apply in_map_iff in Hx.
      destruct Hx as (i & <- & Hi). apply in_seq in Hi.
      destruct H as [H2|He]; [nia|].
      assert (Hb : step + Z.of_nat i * step < end_)
        by (apply (range_length_bound step end_ Hpos); lia).
      nia.
Qed.

(** ** Degenerate sweeps in binary64 *)

Section DegenerateSweeps.
Variable L : Library binary64.
Context {pixel : Type}.
Variable to_float : pixel -> B64.float.


Lemma sub_self_zero_or_nan (x : B64.float) :
  B64.is_zero_or_nan (B64.sub x x) = true.
Proof.
  destruct x as [s|s| |s m e];
    [destruct s; reflexivity | destruct s; reflexivity | reflexivity | ].
  cbv beta iota zeta delta [B64.sub SFsub]. rewrite Z.sub_diag. reflexivity.
Qed.

Lemma div_zero_or_nan (x y : B64.float) :
  B64.is_zero_or_nan x = true -> B64.is_zero_or_nan (B64.div x y) = true.
Proof. destruct x; try discriminate; destruct y; reflexivity. Qed.

Lemma mul_zero_or_nan_l (x y : B64.float) :
  B64.is_zero_or_nan x = true -> B64.is_zero_or_nan (B64.mul x y) = true.
Proof. destruct x; try discriminate; destruct y; reflexivity. Qed.

Lemma mul_zero_or_nan_r (x y : B64.float) :
  B64.is_zero_or_nan y = true -> B64.is_zero_or_nan (B64.mul x y) = true.
Proof. destruct y; try discriminate; destruct x; reflexivity. Qed.

Lemma add_zero_or_nan (x y : B64.float) :
  B64.is_zero_or_nan x = true -> B64.is_zero_or_nan y = true ->
  B64.is_zero_or_nan (B64.add x y) = true.
Proof.
  destruct x as [[|]| | |]; try discriminate;
    destruct y as [[|]| | |]; try discriminate; reflexivity.
Qed.

Lemma div_zero_or_nan_by_zero_or_nan (x z : B64.float) :
  B64.is_zero_or_nan x = true -> B64.is_zero_or_nan z = true ->
  B64.div x z = S754_nan.
Proof.
  destruct x; try discriminate; destruct z; try discriminate; reflexivity.
Qed.

Lemma sum_zero_or_nan (l : list B64.float) :
  Forall (fun x => B64.is_zero_or_nan x = true) l ->
  B64.is_zero_or_nan (B64.sum l) = true.
Proof.
  unfold B64.sum. generalize (S754_zero false) (eq_refl : B64.is_zero_or_nan (S754_zero false) = true).
  induction l as [|x l IH]; intros acc Hacc Hl; [exact Hacc|].
  inversion Hl; subst. cbn [fold_left].
  apply IH; [apply add_zero_or_nan|]; assumption.
Qed.

Lemma Forall_zip_with {A B C : Type} (P : A -> Prop) (Q : B -> Prop)
    (R : C -> Prop) (f : A -> B -> C) (xs : list A) (ys : list B) :
  (forall a b, P a -> Q b -> R (f a b)) ->
  Forall P xs -> Forall Q ys -> Forall R (zip_with f xs ys).
Proof.
  intros Hf Hx. revert ys. induction Hx as [|x xs Hx Hxs IH]; intros ys Hy.
  - constructor.
  - destruct Hy as [|y ys Hy Hys]; cbn [zip_with]; constructor; auto.
Qed.

Lemma Forall_tl {A : Type} (P : A -> Prop) (l : list A) :
  Forall P l -> Forall P (tl l).
Proof. intros [|x xs Hx Hxs]; [constructor | exact Hxs]. Qed.

Lemma Forall_removelast {A : Type} (P : A -> Prop) (l : list A) :
  Forall P l -> Forall P (removelast l).
Proof.
  induction 1 as [|x xs Hx Hxs IH]; [constructor|].
  destruct xs as [|y ys]; [constructor|].
  change (Forall P (x :: removelast (y :: ys))). constructor; assumption.
Qed.

(** The integral of a curve of zeros and NaN is a zero or NaN, whatever
    the abscissae are. *)
Lemma np_trapz_zero_or_nan (y x : list B64.float) :
  Forall (fun g => B64.is_zero_or_nan g = true) y ->
  B64.is_zero_or_nan (np_trapz binary64 y x) = true.
Proof.
  intros Hy. unfold np_trapz. apply sum_zero_or_nan.
  apply (Forall_zip_with (fun _ => True)
           (fun s => B64.is_zero_or_nan s = true)).
  - intros di s _ Hs. apply div_zero_or_nan, mul_zero_or_nan_r, Hs.
  - apply Forall_forall. intros; exact I.
  - apply (Forall_zip_with (fun g => B64.is_zero_or_nan g = true)
             (fun g => B64.is_zero_or_nan g = true)).
    + intros a b. apply add_zero_or_nan.
    + apply Forall_tl, Hy.
    + apply Forall_removelast, Hy.
Qed.

Lemma differences_unchanged (im : image binary64) (diams : list B64.float) :
  Forall (fun d => opened_sum L im d = img_sum binary64 im) diams ->
  Forall (fun g => g = B64.sub (img_sum binary64 im) (img_sum binary64 im))
         (differences L im (img_sum binary64 im) diams).
Proof.
  induction 1 as [|d diams Hd Hall IH]; [constructor|].
  rewrite differences_cons, Hd. constructor; [reflexivity | exact IH].
Qed.

(** When no opening of the sweep changes the total intensity (a flat
    image with more pixels than the largest probed area, an image
    without small bright structures), every raw difference is
    [sum0 - sum0], the integral is a zero or NaN, and every value of
    the returned curve is NaN. *)
Theorem unchanged_image_spectrum_is_nan
    (img : list (list pixel)) (scale : B64.float) (step end_ : Z)
    (bg_diam : B64.float) (diams : list B64.float) :
  let im := snd (prepare L to_float img scale bg_diam) in
  diameters binary64 scale step end_ = Ok diams ->
  Forall (fun d => opened_sum L im d = img_sum binary64 im) diams ->
  exists xs ys,
    calc_size_spectrum L to_float img scale step end_ bg_diam = Ok (xs, ys)
    /\ length ys = length diams
    /\ forallb B64.is_nan ys = true.
Proof.
  cbv zeta. intros Hd Hall.
  rewrite calc_size_spectrum_stages, Hd. cbv zeta.
  eexists. eexists. split; [reflexivity|]. split.
  - rewrite !length_map. apply differences_length.
  - apply differences_unchanged in Hall.
    set (im := snd (prepare L to_float img scale bg_diam)) in *.
    set (s0 := img_sum binary64 im) in *.
    assert (Hgs : Forall (fun g => B64.is_zero_or_nan g = true)
              (map (fun g => mul binary64 (div binary64 g s0) (hundred binary64))
                   (differences L im s0 diams))).
    { apply Forall_forall. intros g Hg. apply in_map_iff in Hg.
      destruct Hg as (g0 & <- & Hg0).
      rewrite (proj1 (Forall_forall _ _) Hall g0 Hg0).
      apply mul_zero_or_nan_l, div_zero_or_nan, sub_self_zero_or_nan. }
    apply forallb_forall. intros y Hy. apply in_map_iff in Hy.
    destruct Hy as (g & <- & Hg).
    change (mul binary64) with B64.mul. change (div binary64) with B64.div.
    rewrite (div_zero_or_nan_by_zero_or_nan g).
    + destruct (fst (prepare L to_float img scale bg_diam)); reflexivity.
    + exact (proj1 (Forall_forall _ _) Hgs g Hg).
    + apply np_trapz_zero_or_nan, Hgs.
Qed.
End DegenerateSweeps.

(** ** More in exact arithmetic *)

Section ExactPipeline.
Local Open Scope R_scope.
Variable L : Library exact.
Context {pixel : Type}.
Variable to_float : pixel -> R.

Ltac over_R :=
  change (num exact) with R in *;
  change (add exact) with Rplus in *;
  change (sub exact) with Rminus in *;
  change (mul exact) with Rmult in *;
  change (div exact) with Rdiv in *;
  change (of_int exact) with IZR in *;
  change (hundred exact) with 100 in *;
  change (two exact) with 2 in *.

(** In exact arithmetic the scaling of the diameters undoes itself for
    every [scale] other than [0]: the returned diameters are
    [[1, step, 2 * step, ...]]. *)
Theorem exact_diameters_round_trip
    (img : list (list pixel)) (scale : R) (step end_ : Z) (bg_diam : R)
    (r : list Z) :
  py_range step end_ step = Ok r ->
  scale <> 0 ->
  exists ys,
    calc_size_spectrum L to_float img scale step end_ bg_diam
    = Ok (map IZR (1 :: r)%Z, ys).
Proof.
  intros Hr Hs.
  destruct (returned_diameters exact L to_float img scale step end_ bg_diam r Hr)
    as [ys H].
  exists ys. rewrite H. do 2 f_equal.
  apply map_ext. intros d. over_R. field. exact Hs.
Qed.

(** The percentage step has no effect on the result: dividing the raw
    differences by [sum0] and multiplying by [100] cancels against the
    integral [z], so the returned curve is [origmean * (g / z')] with
    [z'] the integral of the raw differences themselves. *)
Theorem percent_normalisation_cancels
    (img : list (list pixel)) (scale : R) (step end_ : Z) (bg_diam : R)
    (diams : list R) :
  diameters exact scale step end_ = Ok diams ->
  let origmean := fst (prepare L to_float img scale bg_diam) in
  let im := snd (prepare L to_float img scale bg_diam) in
  let raw := snd (sweep L im diams) in
  let xs := map (fun d => d / scale) diams in
  scale <> 0 -> img_sum exact im <> 0 -> np_trapz exact raw xs <> 0 ->
  calc_size_spectrum L to_float img scale step end_ bg_diam
  = Ok (xs, map (fun g => origmean * (g / np_trapz exact raw xs)) raw).
Proof.
  intros Hd. cbv zeta. intros _ H0 Hz.
  rewrite calc_size_spectrum_stages, Hd. cbv zeta.
  rewrite sweep_closed_form in *. cbn [snd] in *.
  set (im := snd (prepare L to_float img scale bg_diam)) in *.
  set (raw := differences L im (img_sum exact im) diams) in *.
  rewrite (map_ext (fun g => mul exact (div exact g (img_sum exact im)) (hundred exact))
                   (Rmult (100 / img_sum exact im)))
    by (intros g; over_R; field; exact H0).
  rewrite np_trapz_scaled, map_map. do 2 f_equal.
  apply map_ext. intros g. over_R. field. split; assumption.
Qed.
End ExactPipeline.

(** ** Background removal *)

Section BackgroundRemoval.
Variable N : Numeric.
Variable L : Library N.
Context {pixel : Type}.
Variable to_float : pixel -> num N.

Lemma img_sub_shape (a b : image N) :
  map (@length (num N)) b = map (@length (num N)) a ->
  map (@length (num N)) (img_sub N a b) = map (@length (num N)) a.
Proof.
  revert b; induction a as [|ra a IH]; intros [|rb b] H;
    try discriminate; [reflexivity|].
  injection H as Hr Hrest. unfold img_sub in *. cbn [zip_with map].
  rewrite IH by exact Hrest. f_equal.
  rewrite zip_with_length, Hr. apply Nat.min_id.
Qed.

Lemma astype_float_shape (img : list (list pixel)) :
  map (@length (num N)) (astype_float N to_float img)
  = map (@length pixel) img.
Proof.
  unfold astype_float. rewrite map_map. apply map_ext.
  intros row. apply length_map.
Qed.

(** [remove_background] returns an image of the shape of its input
    whenever [rolling_ball] returns a background of that shape. *)
Theorem remove_background_keeps_shape (img : list (list pixel)) (d : num N) :
  map (@length (num N))
      (rolling_ball L (astype_float N to_float img) (div N d (two N)))
  = map (@length pixel) img ->
  map (@length (num N)) (remove_background L to_float img d)
  = map (@length pixel) img.
Proof.
  intros H. unfold remove_background. cbv zeta.
  rewrite img_sub_shape; rewrite astype_float_shape; [reflexivity | exact H].
Qed.
End BackgroundRemoval.

Section ExactBackground.
Local Open Scope R_scope.
Variable L : Library exact.
Context {pixel : Type}.
Variable to_float : pixel -> R.

Lemma sum_app (a b : list R) :
  sum exact (a ++ b) = sum exact a + sum exact b.
Proof.
  induction a as [|x a IH]; cbn in *; [lra | rewrite IH; lra].
Qed.

Lemma sum_zip_minus (a b : list R) :
  length b = length a ->
  sum exact (zip_with (sub exact) a b) = sum exact a - sum exact b.
Proof.
  revert b; induction a as [|x a IH]; intros [|y b] H; try discriminate.
  - cbn. lra.
  - injection H as H. cbn [zip_with]. cbn in *. rewrite (IH b H). lra.
Qed.

Lemma img_sum_sub (a b : image exact) :
  map (@length R) b = map (@length R) a ->
  img_sum exact (img_sub exact a b) = img_sum exact a - img_sum exact b.
Proof.
  unfold img_sum, img_sub.
  revert b; induction a as [|ra a IH]; intros [|rb b] H; try discriminate.
  - cbn. lra.
  - injection H as Hr Hrest. cbn [zip_with concat].
    rewrite !sum_app, (IH b Hrest).
    rewrite (sum_zip_minus ra rb Hr). lra.
Qed.

(** In exact arithmetic the total intensity left by [remove_background]
    is the total of the image minus the total of the background that
    [rolling_ball] estimated, for a background of the image's shape. *)
Theorem background_removed_total (img : list (list pixel)) (d : R) :
  let im := astype_float exact to_float img in
  let bgimg := rolling_ball L im (d / 2) in
  map (@length R) bgimg = map (@length R) im ->
  img_sum exact (remove_background L to_float img d)
  = img_sum exact im - img_sum exact bgimg.
Proof.
  cbv zeta. intros H. unfold remove_background. cbv zeta.
  apply img_sum_sub. exact H.
Qed.
End ExactBackground.

(** ** Sign of the spectrum in exact arithmetic *)

Section NonNegativeSpectrum.
Local Open Scope R_scope.
Variable L : Library exact.
Context {pixel : Type}.
Variable to_float : pixel -> R.

Lemma StronglySorted_map {A B : Type} (P : A -> A -> Prop)
    (Q : B -> B -> Prop) (f : A -> B) (l : list A) :
  (forall a b, P a b -> Q (f a) (f b)) ->
  StronglySorted P l -> StronglySorted Q (map f l).
Proof.
  intros Hf. induction 1 as [|x l Hs IH Hall]; cbn [map]; constructor.
  - exact IH.
  - apply Forall_forall. intros y Hy. apply in_map_iff in Hy.
    destruct Hy as (a & <- & Ha).
    apply Hf. exact (proj1 (Forall_forall _ _) Hall a Ha).
Qed.

(** For a positive [step] the probed diameters never decrease. *)
Lemma probed_diameters_ascend (step end_ : Z) (r : list Z) :
  (0 < step)%Z -> py_range step end_ step = Ok r ->
  StronglySorted Z.le (1 :: r)%Z.
Proof.
  intros Hs Hr. constructor.
  - rewrite (range_elements step end_ r Hs Hr), <- map_id.
    apply (StronglySorted_map Z.lt Z.le (fun z => z));
      [intros; lia | apply multiples_sorted, Hs].
  - apply Forall_forall. intros x Hx.
    rewrite (range_elements step end_ r Hs Hr) in Hx.
    apply in_map_iff in Hx. destruct Hx as (i & <- & _). nia.
Qed.

Lemma differences_nonneg (im : image exact) (diams : list R) :
  forall prevint : R,
    Sorted (fun a b => b <= a) (prevint :: map (opened_sum L im) diams) ->
    Forall (fun g => 0 <= g) (differences L im prevint diams).
Proof.
  induction diams as [|d diams IH]; intros prevint Hs.
  - constructor.
  - rewrite differences_cons. cbn [map] in Hs.
    apply Sorted_inv in Hs. destruct Hs as [Hs Hd].
    apply HdRel_inv in Hd. constructor.
    + change (sub exact) with Rminus. lra.
    + apply IH, Hs.
Qed.

Lemma np_diff_nonneg (x : list R) :
  StronglySorted Rle x -> Forall (fun d => 0 <= d) (np_diff exact x).
Proof.
  induction 1 as [|a x Hs IH Hall]; [constructor|].
  destruct x as [|b x]; [constructor|].
  change (np_diff exact (a :: b :: x))
    with (b - a :: np_diff exact (b :: x)).
  constructor; [|exact IH].
  assert (a <= b) by (apply (proj1 (Forall_forall _ _) Hall); now left).
  lra.
Qed.

Lemma sum_nonneg (l : list R) :
  Forall (fun g => 0 <= g) l -> 0 <= sum exact l.
Proof.
  induction 1 as [|x l Hx Hl IH]; cbn in *; lra.
Qed.

Lemma np_trapz_nonneg (y x : list R) :
  Forall (fun g => 0 <= g) y -> StronglySorted Rle x ->
  0 <= np_trapz exact y x.
Proof.
  intros Hy Hx. unfold np_trapz. apply sum_nonneg.
  apply (Forall_zip_with (fun d => 0 <= d) (fun s => 0 <= s)).
  - intros di s Hd Hs.
    change (0 <= di * s / 2). apply Rmult_le_pos; [|lra].
    apply Rmult_le_pos; assumption.
  - apply np_diff_nonneg, Hx.
  - apply (Forall_zip_with (fun g => 0 <= g) (fun g => 0 <= g)).
    + intros a b Ha Hb. change (0 <= a + b). lra.
    + apply Forall_tl, Hy.
    + apply Forall_removelast, Hy.
Qed.

(** In exact arithmetic, when the openings of the sweep lose intensity
    monotonically (each total is at most the one before, the first at
    most [sum0]), the image has positive total intensity and a
    non-negative mean, [step] and [scale] are positive and the integral
    [z] is not zero, every value of the returned curve is
    non-negative. *)
Theorem monotone_openings_give_nonnegative_spectrum
    (img : list (list pixel)) (scale : R) (step end_ : Z) (bg_diam : R)
    (r : list Z) :
  py_range step end_ step = Ok r ->
  (0 < step)%Z -> 0 < scale ->
  let diams := map (fun d => IZR d * scale) (1 :: r)%Z in
  let origmean := fst (prepare L to_float img scale bg_diam) in
  let im := snd (prepare L to_float img scale bg_diam) in
  let sum0 := img_sum exact im in
  let gs := map (fun g => g / sum0 * 100) (snd (sweep L im diams)) in
  let xs := map (fun d => d / scale) diams in
  Sorted (fun a b => b <= a) (sum0 :: map (opened_sum L im) diams) ->
  0 < sum0 -> 0 <= origmean -> np_trapz exact gs xs <> 0 ->
  exists ys,
    calc_size_spectrum L to_float img scale step end_ bg_diam = Ok (xs, ys)
    /\ Forall (fun y => 0 <= y) ys.
Proof.
  intros Hr Hstep Hscale. cbv zeta. intros Hchain H0 Hmean Hz.
  rewrite calc_size_spectrum_stages, (diameters_ok exact scale step end_ r Hr).
  cbv zeta. rewrite sweep_closed_form in Hz. cbn [snd] in Hz.
  set (diams := map (fun d => mul exact (of_int exact d) scale) (1 :: r)%Z) in *.
  set (im := snd (prepare L to_float img scale bg_diam)) in *.
  set (xs := map (fun d => div exact d scale) diams) in *.
  set (gs := map (fun g => mul exact (div exact g (img_sum exact im)) (hundred exact))
                 (differences L im (img_sum exact im) diams)) in *.
  assert (Hgs : Forall (fun g => 0 <= g) gs).
  { apply Forall_forall. intros g Hg. apply in_map_iff in Hg.
    destruct Hg as (g0 & <- & Hg0).
    pose proof (proj1 (Forall_forall _ _)
                  (differences_nonneg im diams _ Hchain) g0 Hg0) as Hpos.
    change (0 <= g0 / img_sum exact im * 100).
    apply Rmult_le_pos; [|lra].
    apply Rmult_le_pos; [exact Hpos|].
    apply Rlt_le, Rinv_0_lt_compat, H0. }
  assert (Hxs : StronglySorted Rle xs).
  { unfold xs, diams. rewrite map_map.
    apply (StronglySorted_map Z.le Rle);
      [|exact (probed_diameters_ascend step end_ r Hstep Hr)].
    intros a b Hab.
    change (IZR a * scale / scale <= IZR b * scale / scale).
    apply IZR_le in Hab.
    replace (IZR a * scale / scale) with (IZR a) by (field; lra).
    replace (IZR b * scale / scale) with (IZR b) by (field; lra).
    exact Hab. }
  pose proof (np_trapz_nonneg gs xs Hgs Hxs) as Hz0.
  eexists. split; [reflexivity|].
  apply Forall_forall. intros y Hy. apply in_map_iff in Hy.
  destruct Hy as (g & <- & Hg).
  change (0 <= fst (prepare L to_float img scale bg_diam)
               * (g / np_trapz exact gs xs)).
  apply Rmult_le_pos; [exact Hmean|].
  apply Rmult_le_pos; [exact (proj1 (Forall_forall _ _) Hgs g Hg)|].
  apply Rlt_le, Rinv_0_lt_compat.
  change (np_trapz exact gs xs <> 0) in Hz. lra.
Qed.
End NonNegativeSpectrum.

(** ** The further properties on concrete inputs *)

Section FurtherRuns.
Import Samples.

Lemma probed_diameters_witness :
  In 10 (1 :: [5; 10; 15])
  <-> 10 = 1 \/ exists k, 1 <= k /\ 10 = k * 5 /\ 10 < 20.
Proof.
  apply (probed_diameters 5 20 [5; 10; 15]); reflexivity.
Defined.

Lemma probed_diameters_increasing_witness :
  StronglySorted Z.lt (1 :: [5; 10; 15]) <-> 2 <= 5 \/ 20 <= 5.
Proof.
  apply (probed_diameters_increasing 5 20 [5; 10; 15]); reflexivity.
Defined.


Lemma unchanged_image_witness :
  exists xs ys,
    calc_size_spectrum identity_library (fun x => x) flat_100x100
                       f1 5 20 f0
    = Ok (xs, ys)
    /\ length ys
       = length (map (fun d => mul binary64 (of_int binary64 d) f1)
                     [1; 5; 10; 15])
    /\ forallb B64.is_nan ys = true.
Proof.
  apply (unchanged_image_spectrum_is_nan identity_library (fun x => x)
           flat_100x100 f1 5 20 f0).
  - reflexivity.
  - repeat (constructor; [vm_compute; reflexivity|]). constructor.
Defined.

Lemma remove_background_shape_witness :
  map (@length B64.float)
      (remove_background identity_library (fun x => x) [[f5; f1]; [f0; f1]] f0)
  = map (@length B64.float) [[f5; f1]; [f0; f1]].
Proof.
  apply (remove_background_keeps_shape binary64 identity_library (fun x => x)
           [[f5; f1]; [f0; f1]] f0).
  reflexivity.
Defined.
End FurtherRuns.

Section FurtherExactRuns.
Import Samples.
Local Open Scope R_scope.

Lemma exact_diameters_witness :
  exists ys,
    calc_size_spectrum unit_library (fun x : R => x) [[2]] (1 / 10) 2 3 0
    = Ok (map IZR [1; 2]%Z, ys).
Proof.
  apply (exact_diameters_round_trip unit_library (fun x : R => x) [[2]]
           (1 / 10) 2%Z 3%Z 0 [2%Z]); [reflexivity | lra].
Defined.

Lemma percent_normalisation_witness :
  calc_size_spectrum unit_library (fun x : R => x) [[2]] 1 2 3 0
  = Ok (map (fun d => d / 1) [1 * 1; 2 * 1],
        map (fun g =>
               fst (prepare unit_library (fun x : R => x) [[2]] 1 0)
               * (g / np_trapz exact
                        (snd (sweep unit_library
                                (snd (prepare unit_library (fun x : R => x)
                                        [[2]] 1 0))
                                [1 * 1; 2 * 1]))
                        (map (fun d => d / 1) [1 * 1; 2 * 1])))
            (snd (sweep unit_library
                    (snd (prepare unit_library (fun x : R => x) [[2]] 1 0))
                    [1 * 1; 2 * 1]))).
Proof.
  apply (percent_normalisation_cancels unit_library (fun x : R => x) [[2]]
           1 2%Z 3%Z 0 [1 * 1; 2 * 1]).
  - reflexivity.
  - lra.
  - rewrite prepare_unit. cbn. lra.
  - rewrite prepare_unit. cbn. lra.
Defined.

Lemma background_total_witness :
  img_sum exact (remove_background unit_library (fun x : R => x) [[2; 3]] 0)
  = img_sum exact (astype_float exact (fun x : R => x) [[2; 3]])
    - img_sum exact
        (rolling_ball unit_library
           (astype_float exact (fun x : R => x) [[2; 3]]) (0 / 2)).
Proof.
  apply (background_removed_total unit_library (fun x : R => x) [[2; 3]] 0).
  reflexivity.
Defined.

Lemma nonnegative_spectrum_witness :
  exists ys,
    calc_size_spectrum unit_library (fun x : R => x) [[2]] 1 2 3 0
    = Ok (map (fun d => d / 1) (map (fun d => IZR d * 1) [1; 2]%Z), ys)
    /\ Forall (fun y => 0 <= y) ys.
Proof.
  apply (monotone_openings_give_nonnegative_spectrum unit_library
           (fun x : R => x) [[2]] 1 2%Z 3%Z 0 [2%Z]).
  - reflexivity.
  - reflexivity.
  - lra.
  - rewrite prepare_unit. cbn.
    repeat (constructor; try (cbn; lra)).
  - rewrite prepare_unit. cbn. lra.
  - rewrite prepare_unit. cbn. lra.
  - rewrite prepare_unit. cbn. lra.
Defined.
End FurtherExactRuns.
